(** * Authorization code flow with PKCE: pre-redirect bookkeeping, and the
      session event listener interface

    Source: packages/core/src/login/oidc/oidcHandlers/
            AuthorizationCodeWithPkceOidcHandler.ts
    (class [AuthorizationCodeWithPkceOidcHandlerBase]) followed by the
    declaration of [ISessionEventListener].

    The handler talks to two injected collaborators, a storage utility and a
    redirector.  Both are interfaces here, so the handler is verified against
    every implementation of them; two small implementations (an in-memory
    key/value store and a recording redirector) serve the statements that
    talk about what the storage holds afterwards.

    The interface [ISessionEventListener] has no code to run: its overloads
    are kept as the source declares them, type by type, and given their
    values, so that "no value has this type" is a statement about them. *)

From Stdlib Require Import ZArith Lia PrimFloat.
From stdpp Require Import base option strings list gmap.

(* String literals are read as strings; [++] and [≤] stay those of lists and
   natural numbers. *)
Open Scope string_scope.
Open Scope list_scope.
Open Scope nat_scope.

(** ** JavaScript values used by the handler *)

(** [new Error(message)]. *)
Inductive JsError : Type :=
| Error (message : string).

(** A value of static type [unknown]. *)
Inductive unknown : Type :=
| JsUndefined
| JsNull
| JsBoolean (b : bool)
| JsString (s : string)
| JsNumber (n : float).

(** [x.toString()] *)
Class ToString (A : Type) := toString : A → string.

#[global] Instance boolean_toString : ToString bool :=
  λ b, if b then "true" else "false".

#[global] Instance string_toString : ToString string :=
  λ s, s.

(** [Boolean(value)] on a [boolean | undefined]. *)
Definition Boolean (value : option bool) : bool :=
  match value with
  | Some b => b
  | None => false
  end.

(** [Array.prototype.indexOf]: position of the first strictly equal element,
    [-1] when there is none. *)
Fixpoint indexOf_from (fromIndex : Z) (searchElement : string)
    (array : list string) : Z :=
  match array with
  | [] => (-1)%Z
  | element :: rest =>
      if String.eqb element searchElement then fromIndex
      else indexOf_from (fromIndex + 1)%Z searchElement rest
  end.

Definition indexOf (array : list string) (searchElement : string) : Z :=
  indexOf_from 0%Z searchElement array.

(** How a promise settles. *)
Inductive Settlement : Type :=
| fulfilled
| rejected (reason : JsError).

(** The reasons of the members that reject, in the order of the array. *)
Definition rejections (promises : list Settlement) : list JsError :=
  omap (λ promise,
          match promise with
          | fulfilled => None
          | rejected reason => Some reason
          end)
       promises.

(** [Promise.all]: fulfilled when every member is, otherwise rejected with
    the reason of the member that rejects first in time.  Which member that
    is lies with the promises and not with their place in the array, so it
    is an input of the run: [earliest] is the position of that member among
    the members that reject (counted from 0 in the order of the array; a
    position past the last of them stands for the first). *)
Definition Promise_all (earliest : nat) (promises : list Settlement)
    : Settlement :=
  match rejections promises with
  | [] => fulfilled
  | reason :: later => rejected (default reason ((reason :: later) !! earliest))
  end.

(** ** Login options *)

(** Modelled from the spec: the issuer configuration type (IIssuerConfig) is
    imported, not declared here; it "exposes at minimum
    [grantTypesSupported: string[] | undefined]". *)
Record IIssuerConfig : Type := {
  grantTypesSupported : option (list string)
}.

(** Modelled from the spec: the login options type (IOidcOptions) is imported,
    not declared here.  The fields are the ones the handler reads: issuer
    identifier, issuer capability descriptor, optional redirect URL, session
    identifier, DPoP flag, keep-alive flag, optional custom redirect
    handler.  An optional property is an [option]; the DPoP flag goes through
    [Boolean(...)] in the handler and so may be absent as well. *)
Record IOidcOptions : Type := {
  issuer : string;
  issuerConfiguration : IIssuerConfig;
  redirectUrl : option string;
  sessionId : string;
  dpop : option bool;
  keepAlive : option bool;
  handleRedirect : option (string → unknown)
}.

(** ** Collaborators *)

(** The second argument of [IRedirector.redirect]. *)
Record IRedirectorOptions : Type := {
  options_handleRedirect : option (string → unknown)
}.

(** Modelled from the spec: the storage interface (IStorageUtility) is
    imported, not declared here: "[setForUser(key: string, record:
    mapping<string,string>) -> Promise<void>], keyed by an opaque string".
    An implementation has its own state [S]; a call moves it and says how
    the returned promise settles. *)
Class IStorageUtility (S : Type) : Type := {
  setForUser : string → gmap string string → S → S * Settlement
}.

(** Modelled from the spec: the redirector interface (IRedirector) is
    imported, not declared here: "[redirect(targetUrl: string, options:
    { handleRedirect? }) -> void]; synchronous hand-off".  A [rejected]
    result is an exception thrown by the call. *)
Class IRedirector (R : Type) : Type := {
  redirect : string → IRedirectorOptions → R → R * Settlement
}.

(** A call received by a collaborator. *)
Inductive Call : Type :=
| SetForUser (userId : string) (values : gmap string string)
| Redirect (redirectUrl : string) (options : IRedirectorOptions).

Definition is_redirect (c : Call) : bool :=
  match c with
  | Redirect _ _ => true
  | SetForUser _ _ => false
  end.

(** The handler object ([this.storageUtility], [this.redirector]) together
    with the calls its collaborators have received so far, oldest first. *)
Record Handler (S R : Type) : Type := mkHandler {
  storageUtility : S;
  redirector : R;
  calls : list Call
}.
Arguments mkHandler {S R} _ _ _.
Arguments storageUtility {S R} _.
Arguments redirector {S R} _.
Arguments calls {S R} _.

(** ** Asynchronous methods

    An [async] method run to completion from a handler state: it resolves
    with a value or rejects with a reason, and leaves a handler state. *)
Inductive Completion (W A : Type) : Type :=
| Resolved (w : W) (a : A)
| Thrown (w : W) (reason : JsError).
Arguments Resolved {W A} _ _.
Arguments Thrown {W A} _ _.

Definition Async (W A : Type) : Type := W → Completion W A.

#[global] Instance Async_ret {W} : MRet (Async W) :=
  λ A a w, Resolved w a.

#[global] Instance Async_bind {W} : MBind (Async W) :=
  λ A B f m w,
    match m w with
    | Resolved w' a => f a w'
    | Thrown w' reason => Thrown w' reason
    end.

(** [throw reason] *)
Definition throw {W A} (reason : JsError) : Async W A :=
  λ w, Thrown w reason.

(** [await promise] on a promise that has settled. *)
Definition await {W} (promise : Settlement) : Async W unit :=
  match promise with
  | fulfilled => mret tt
  | rejected reason => throw reason
  end.

(** ** The handler *)

Definition booleanWithFallback (value : option bool) (fallback : bool) : bool :=
  match value with
  | Some b => Boolean (Some b)
  | None => Boolean (Some fallback)
  end.

Definition parametersGuard (oidcLoginOptions : IOidcOptions) : bool :=
  match grantTypesSupported (issuerConfiguration oidcLoginOptions) with
  | None => false
  | Some grantTypes =>
      (indexOf grantTypes "authorization_code" >? -1)%Z
      && bool_decide (redirectUrl oidcLoginOptions ≠ None)
  end.

(** [parametersGuard] is a type predicate ([oidcLoginOptions is IOidcOptions
    & { redirectUrl: string }]): past it, [oidcLoginOptions.redirectUrl] is
    read at type [string].  Lemma [parametersGuard_redirectUrl] below shows
    that the fallback of this projection is never taken there. *)
Definition redirectUrl_narrowed (oidcLoginOptions : IOidcOptions) : string :=
  default "" (redirectUrl oidcLoginOptions).

(** The argument object of [setupRedirectHandler]. *)
Record SetupRedirectHandlerArgs : Type := {
  oidcLoginOptions : IOidcOptions;
  state : string;
  codeVerifier : string;
  targetUrl : string
}.

(** The record written under the OAuth [state] value. *)
Definition stateRecord (o : IOidcOptions) : gmap string string :=
  {[ "sessionId" := sessionId o ]}.

(** The record written under the session identifier. *)
Definition sessionRecord (o : IOidcOptions) (codeVerifier : string)
    : gmap string string :=
  <[ "codeVerifier" := codeVerifier ]>
  (<[ "issuer" := toString (issuer o) ]>
  (<[ "redirectUrl" := redirectUrl_narrowed o ]>
  (<[ "dpop" := toString (Boolean (dpop o)) ]>
  (<[ "keepAlive" := toString (booleanWithFallback (keepAlive o) true) ]> ∅)))).

Section AuthorizationCodeWithPkceOidcHandlerBase.
Context {S R : Type} `{!IStorageUtility S} `{!IRedirector R}.
(** Which of the two writes of a run is the first to reject, should both
    reject (see [Promise_all]). *)
Variable earliest : nat.

(** [this.storageUtility.setForUser(userId, values)]: the write is started
    and its promise handed back, not awaited. *)
Definition storageUtility_setForUser (userId : string)
    (values : gmap string string) : Async (Handler S R) Settlement :=
  λ this,
    let '(storage', promise) := setForUser userId values (storageUtility this) in
    Resolved
      (mkHandler storage' (redirector this)
                 (calls this ++ [SetForUser userId values]))
      promise.

(** [this.redirector.redirect(targetUrl, options)] *)
Definition redirector_redirect (targetUrl : string)
    (options : IRedirectorOptions) : Async (Handler S R) unit :=
  λ this,
    let '(redirector', outcome) := redirect targetUrl options (redirector this) in
    let this' :=
      mkHandler (storageUtility this) redirector'
                (calls this ++ [Redirect targetUrl options]) in
    match outcome with
    | fulfilled => Resolved this' tt
    | rejected reason => Thrown this' reason
    end.

Definition canHandle (oidcLoginOptions : IOidcOptions)
    : Async (Handler S R) bool :=
  mret (parametersGuard oidcLoginOptions).

(** The two writes are started one after the other, in the order of the
    array literal, before [Promise.all] is awaited; each write is taken to
    act on the storage when it is started.  The order in which the two
    promises settle is not the code's to choose; it enters through
    [earliest]. *)
Definition setupRedirectHandler (args : SetupRedirectHandlerArgs)
    : Async (Handler S R) unit :=
  let o := oidcLoginOptions args in
  if negb (parametersGuard o) then
    throw (Error "The authorization code grant requires a redirectUrl.")
  else
    stateStored ← storageUtility_setForUser (state args) (stateRecord o);
    sessionStored ← storageUtility_setForUser (sessionId o)
                      (sessionRecord o (codeVerifier args));
    await (Promise_all earliest [stateStored; sessionStored]);;
    redirector_redirect (targetUrl args)
      {| options_handleRedirect := handleRedirect o |};;
    mret tt.

(** *** What a run goes through

    The steps of [setupRedirectHandler] past the guard, named one by one
    for the statements below. *)

(** The write under [state]: storage afterwards, and how it settles. *)
Definition stateWrite (args : SetupRedirectHandlerArgs) (this : Handler S R)
    : S * Settlement :=
  setForUser (state args) (stateRecord (oidcLoginOptions args))
    (storageUtility this).

(** The write under the session identifier, started after the first. *)
Definition sessionWrite (args : SetupRedirectHandlerArgs) (this : Handler S R)
    : S * Settlement :=
  setForUser (sessionId (oidcLoginOptions args))
    (sessionRecord (oidcLoginOptions args) (codeVerifier args))
    (stateWrite args this).1.

Definition redirectOptions (args : SetupRedirectHandlerArgs)
    : IRedirectorOptions :=
  {| options_handleRedirect := handleRedirect (oidcLoginOptions args) |}.

(** The hand-off to the redirector. *)
Definition handOff (args : SetupRedirectHandlerArgs) (this : Handler S R)
    : R * Settlement :=
  redirect (targetUrl args) (redirectOptions args) (redirector this).

Definition writeCalls (args : SetupRedirectHandlerArgs) : list Call :=
  [ SetForUser (state args) (stateRecord (oidcLoginOptions args));
    SetForUser (sessionId (oidcLoginOptions args))
      (sessionRecord (oidcLoginOptions args) (codeVerifier args)) ].

(** The handler once both writes have been started. *)
Definition writesStarted (args : SetupRedirectHandlerArgs)
    (this : Handler S R) : Handler S R :=
  mkHandler (sessionWrite args this).1 (redirector this)
            (calls this ++ writeCalls args).

(** The handler once the redirector has been called. *)
Definition handedOff (args : SetupRedirectHandlerArgs)
    (this : Handler S R) : Handler S R :=
  mkHandler (sessionWrite args this).1 (handOff args this).1
            (calls this ++ writeCalls args
               ++ [Redirect (targetUrl args) (redirectOptions args)]).

End AuthorizationCodeWithPkceOidcHandlerBase.

(** ** Implementations of the collaborators *)

(** Modelled from the spec: the storage implementation is not part of this
    file.  A key/value store holding one record per key, in which "the
    later write wins with no conflict detection"; its writes never fail. *)
Abbreviation InMemoryStorage := (gmap string (gmap string string)).

#[global] Instance InMemoryStorage_utility
    : IStorageUtility InMemoryStorage := {
  setForUser userId values storage :=
    (<[ userId := values ]> storage, fulfilled)
}.

(** A key/value store of bounded capacity: a write that would make it hold
    more than [quota] keys is rejected and leaves the store as it was. *)
Record QuotaStorage : Type := mkQuotaStorage {
  entries : gmap string (gmap string string);
  quota : nat
}.

#[global] Instance QuotaStorage_utility : IStorageUtility QuotaStorage := {
  setForUser userId values storage :=
    let entries' := <[ userId := values ]> (entries storage) in
    if decide (size entries' ≤ quota storage) then
      (mkQuotaStorage entries' (quota storage), fulfilled)
    else
      (storage, rejected (Error "QuotaExceededError"))
}.

(** Modelled from the spec: the redirector implementation is not part of
    this file.  This one keeps the hand-offs it received, oldest first, and
    never throws. *)
Abbreviation RecordingRedirector := (list (string * IRedirectorOptions)).

#[global] Instance RecordingRedirector_redirector
    : IRedirector RecordingRedirector := {
  redirect targetUrl options received :=
    (received ++ [(targetUrl, options)], fulfilled)
}.

(** * The session event listener interface *)

(** [number] *)
Definition number : Type := float.

(** Modelled from the spec: the table [EVENTS] of ./constant is imported, not
    declared here.  Its keys are the ten channels of the interface; the
    string each key stands for is a parameter ([EVENTS] below). *)
Inductive EventKey : Type :=
| LOGIN | LOGOUT | SESSION_EXPIRED | SESSION_RESTORED | ERROR
| SESSION_EXTENDED | TIMEOUT_SET | NEW_REFRESH_TOKEN | NEW_TOKENS
| AUTHORIZATION_REQUEST.

(** An event name at run time: [string | symbol]. *)
Inductive EventName : Type :=
| NameString (s : string)
| NameSymbol (id : positive).

#[global] Instance EventName_eq_dec : EqDecision EventName.
Proof. solve_decision. Defined.

(** The types given to [eventName] parameters. *)
Inductive NameType : Type :=
| typeof_EVENTS (key : EventKey)   (* typeof EVENTS.KEY *)
| string_or_symbol                 (* Parameters<EventEmitter["on"]>[0] *)
| never_name.                      (* never *)

(** The types that occur in listener signatures. *)
Inductive TsType : Type :=
| t_string | t_number | t_boolean | t_null | t_void | t_unknown | t_never
| t_Error
| t_SessionTokenSet
| t_AuthorizationRequestState
| t_union (a b : TsType).

Record FormalParameter : Type := {
  parameter_name : string;
  optional : bool;
  parameter_type : TsType
}.

Definition required (name : string) (type : TsType) : FormalParameter :=
  {| parameter_name := name; optional := false; parameter_type := type |}.

Definition optionally (name : string) (type : TsType) : FormalParameter :=
  {| parameter_name := name; optional := true; parameter_type := type |}.

(** The types given to [listener] parameters. *)
Inductive ListenerType : Type :=
| function (parameters : list FormalParameter) (result : TsType)
| never_listener.

(** The [*_ARGS] type aliases. *)
Record ARGS : Type := {
  eventName : NameType;
  listener : ListenerType
}.

Definition LOGIN_ARGS : ARGS :=
  {| eventName := typeof_EVENTS LOGIN; listener := function [] t_void |}.
Definition LOGOUT_ARGS : ARGS :=
  {| eventName := typeof_EVENTS LOGOUT; listener := function [] t_void |}.
Definition SESSION_EXPIRED_ARGS : ARGS :=
  {| eventName := typeof_EVENTS SESSION_EXPIRED;
     listener := function [] t_void |}.
Definition SESSION_RESTORED_ARGS : ARGS :=
  {| eventName := typeof_EVENTS SESSION_RESTORED;
     listener := function [required "currentUrl" t_string] t_unknown |}.
Definition ERROR_ARGS : ARGS :=
  {| eventName := typeof_EVENTS ERROR;
     listener :=
       function
         [ required "error" (t_union t_string t_null);
           optionally "errorDescription"
             (t_union t_string (t_union t_Error t_null)) ]
         t_unknown |}.
Definition SESSION_EXTENDED_ARGS : ARGS :=
  {| eventName := typeof_EVENTS SESSION_EXTENDED;
     listener := function [required "expiresIn" t_number] t_void |}.
Definition TIMEOUT_SET_ARGS : ARGS :=
  {| eventName := typeof_EVENTS TIMEOUT_SET;
     listener := function [required "timeoutId" t_number] t_void |}.
Definition NEW_REFRESH_TOKEN_ARGS : ARGS :=
  {| eventName := typeof_EVENTS NEW_REFRESH_TOKEN;
     listener := function [required "newToken" t_string] t_void |}.
Definition NEW_TOKENS_ARGS : ARGS :=
  {| eventName := typeof_EVENTS NEW_TOKENS;
     listener := function [required "tokenSet" t_SessionTokenSet] t_void |}.
Definition AUTH_STATE_ARGS : ARGS :=
  {| eventName := typeof_EVENTS AUTHORIZATION_REQUEST;
     listener :=
       function
         [required "authorizationRequestState" t_AuthorizationRequestState]
         t_void |}.
Definition FALLBACK_ARGS : ARGS :=
  {| eventName := string_or_symbol; listener := never_listener |}.

(** The overloaded methods of [ISessionEventListener] that take a listener. *)
Inductive Method : Type :=
| on | addListener | once | off | removeListener.

(** The overloads of each method, in the order of their declaration. *)
Definition overloads (method : Method) : list ARGS :=
  match method with
  | on =>
      [ LOGIN_ARGS; LOGOUT_ARGS; SESSION_EXPIRED_ARGS; SESSION_RESTORED_ARGS;
        ERROR_ARGS; SESSION_EXTENDED_ARGS; TIMEOUT_SET_ARGS;
        NEW_REFRESH_TOKEN_ARGS; NEW_TOKENS_ARGS; AUTH_STATE_ARGS;
        FALLBACK_ARGS ]
  | addListener =>
      [ LOGIN_ARGS; LOGOUT_ARGS; SESSION_EXPIRED_ARGS; SESSION_RESTORED_ARGS;
        ERROR_ARGS; SESSION_EXTENDED_ARGS; TIMEOUT_SET_ARGS;
        NEW_REFRESH_TOKEN_ARGS; NEW_TOKENS_ARGS; AUTH_STATE_ARGS;
        FALLBACK_ARGS ]
  | once =>
      [ LOGIN_ARGS; LOGOUT_ARGS; SESSION_EXPIRED_ARGS; SESSION_RESTORED_ARGS;
        ERROR_ARGS; SESSION_EXTENDED_ARGS; TIMEOUT_SET_ARGS;
        NEW_REFRESH_TOKEN_ARGS; NEW_TOKENS_ARGS; AUTH_STATE_ARGS;
        FALLBACK_ARGS ]
  | off =>
      [ LOGIN_ARGS; LOGOUT_ARGS; SESSION_EXPIRED_ARGS; SESSION_RESTORED_ARGS;
        ERROR_ARGS; SESSION_EXTENDED_ARGS; TIMEOUT_SET_ARGS;
        NEW_REFRESH_TOKEN_ARGS; NEW_TOKENS_ARGS; AUTH_STATE_ARGS;
        FALLBACK_ARGS ]
  | removeListener =>
      [ LOGIN_ARGS; LOGOUT_ARGS; SESSION_EXPIRED_ARGS; SESSION_RESTORED_ARGS;
        ERROR_ARGS; SESSION_EXTENDED_ARGS; TIMEOUT_SET_ARGS;
        NEW_REFRESH_TOKEN_ARGS; NEW_TOKENS_ARGS; AUTH_STATE_ARGS;
        FALLBACK_ARGS ]
  end.

#[global] Instance EventKey_eq_dec : EqDecision EventKey.
Proof. solve_decision. Defined.

#[global] Instance NameType_eq_dec : EqDecision NameType.
Proof. solve_decision. Defined.

(** The listener signature a method pairs with a channel: that of its first
    overload whose [eventName] is the type of the channel's name. *)
Definition signature_of (method : Method) (key : EventKey)
    : option ListenerType :=
  listener <$>
    head (filter (λ overload, eventName overload = typeof_EVENTS key)
                 (overloads method)).

(** [emit(eventName: never, ...args: never): boolean] *)
Record EmitSignature : Type := {
  emit_eventName : NameType;
  emit_args : TsType;
  emit_result : TsType
}.

Definition emit : EmitSignature :=
  {| emit_eventName := never_name; emit_args := t_never;
     emit_result := t_boolean |}.

(** The registration methods of [EventEmitter] that the interface leaves as
    it inherits them. *)
Inductive InheritedMethod : Type :=
| prependListener | prependOnceListener.

(** The type of their [eventName] parameter. *)
Definition inherited_eventName (method : InheritedMethod) : NameType :=
  match method with
  | prependListener => string_or_symbol
  | prependOnceListener => string_or_symbol
  end.

(** The values of the type of their [listener] parameter,
    [(...args: any[]) => void]. *)
Definition any_listener : Type := list unknown → unit.

(** ** The values of the types *)

Module AuthorizationRequestState.
Record t : Type := {
  codeVerifier : string;
  state : string;
  issuer : string;
  redirectUrl : string;
  dpopBound : bool;
  clientId : string
}.
End AuthorizationRequestState.

Module SessionTokenSet.
Record t (KeyPair : Type) : Type := {
  accessToken : option string;
  idToken : option string;
  webId : option string;
  refreshToken : option string;
  expiresAt : option number;
  dpopKey : option KeyPair;
  issuer : string;
  clientId : string
}.
End SessionTokenSet.

Section TypedInterface.
(** The string behind each key of [EVENTS]. *)
Variable EVENTS : EventKey → string.
(** The imported type [KeyPair] of a DPoP key. *)
Variable KeyPair : Type.

(** Whether an event name belongs to a name type. *)
Definition name_in (name : EventName) (type : NameType) : bool :=
  match type with
  | typeof_EVENTS key => bool_decide (name = NameString (EVENTS key))
  | string_or_symbol => true
  | never_name => false
  end.

(** The values of a type; [never] has none. *)
Fixpoint values (type : TsType) : Type :=
  match type with
  | t_string => string
  | t_number => number
  | t_boolean => bool
  | t_null => unit
  | t_void => unit
  | t_unknown => unknown
  | t_never => Empty_set
  | t_Error => JsError
  | t_SessionTokenSet => SessionTokenSet.t KeyPair
  | t_AuthorizationRequestState => AuthorizationRequestState.t
  | t_union a b => (values a + values b)%type
  end.

Definition parameter_values (p : FormalParameter) : Type :=
  if optional p then option (values (parameter_type p))
  else values (parameter_type p).

(** The functions of a signature, curried; [() => T] takes [tt]. *)
Fixpoint function_values (parameters : list FormalParameter) (result : TsType)
    : Type :=
  match parameters with
  | [] => unit → values result
  | [p] => parameter_values p → values result
  | p :: rest => parameter_values p → function_values rest result
  end.

Definition listener_values (type : ListenerType) : Type :=
  match type with
  | function parameters result => function_values parameters result
  | never_listener => Empty_set
  end.

(** The overloads of a method that take a given event name. *)
Definition candidates (method : Method) (name : EventName) : list ARGS :=
  filter (λ overload, name_in name (eventName overload) = true)
         (overloads method).

(** Overload resolution on the event name: the first declared overload
    that takes it. *)
Definition resolve (method : Method) (name : EventName) : option ARGS :=
  head (candidates method name).

(** A well-typed call [method(name, callback)]: checked against one of the
    declared overloads. *)
Record TypedCall (method : Method) : Type := {
  call_overload : ARGS;
  call_declared : call_overload ∈ overloads method;
  call_name : EventName;
  call_name_typed : name_in call_name (eventName call_overload) = true;
  call_listener : listener_values (listener call_overload)
}.

(** A well-typed call [emit(name, ...args)]. *)
Record TypedEmit : Type := {
  emitted_name : EventName;
  emitted_name_typed : name_in emitted_name (emit_eventName emit) = true;
  emitted_args : values (emit_args emit)
}.

(** An event name that is none of the ten channels. *)
Definition unlisted (name : EventName) : Prop :=
  ∀ key, name ≠ NameString (EVENTS key).

(** *** What the interface inherits

    [ISessionEventListener extends EventEmitter], with [EventEmitter] the
    class of Node's module "events" (imported as a type, not declared
    here).  A member of [EventEmitter] that the interface does not declare
    again belongs to it as Node types it.  Two such members register a
    listener, [prependListener] and [prependOnceListener], each declared by
    Node as [(eventName: string | symbol, listener: (...args: any[]) =>
    void): this]. *)

(** A well-typed call [method(name, callback)] of an inherited method. *)
Record InheritedCall (method : InheritedMethod) : Type := {
  inherited_name : EventName;
  inherited_name_typed :
    name_in inherited_name (inherited_eventName method) = true;
  inherited_listener : any_listener
}.

End TypedInterface.

Arguments call_overload {EVENTS KeyPair method} _.
Arguments call_name {EVENTS KeyPair method} _.
Arguments call_listener {EVENTS KeyPair method} _.
Arguments emitted_name {EVENTS KeyPair} _.
Arguments inherited_name {EVENTS method} _.
Arguments inherited_listener {EVENTS method} _.

(** * Observations and sample inputs *)

(** The handler state a completed call leaves behind. *)
Definition handler_after {W A} (c : Completion W A) : W :=
  match c with
  | Resolved w _ => w
  | Thrown w _ => w
  end.

Definition is_thrown {W A} (c : Completion W A) : bool :=
  match c with
  | Resolved _ _ => false
  | Thrown _ _ => true
  end.

(** The calls a handler state has on record beyond those of an earlier one. *)
Definition calls_since {S R} (before after : Handler S R) : list Call :=
  drop (length (calls before)) (calls after).

(** The concrete scenario of the specification. *)
Definition scenario_options : IOidcOptions :=
  {| issuer := "https://idp.example";
     issuerConfiguration :=
       {| grantTypesSupported := Some ["authorization_code"] |};
     redirectUrl := Some "https://app.example/cb";
     sessionId := "s1";
     dpop := Some true;
     keepAlive := None;
     handleRedirect := None |}.

Definition scenario_args : SetupRedirectHandlerArgs :=
  {| oidcLoginOptions := scenario_options;
     state := "xyz";
     codeVerifier := "verifier123";
     targetUrl := "https://idp.example/authorize?..." |}.

(** The same call with an OAuth state equal to the session identifier. *)
Definition collision_args : SetupRedirectHandlerArgs :=
  {| oidcLoginOptions := scenario_options;
     state := "s1";
     codeVerifier := "verifier123";
     targetUrl := "https://idp.example/authorize?..." |}.

(** Options without a redirect URL. *)
Definition no_redirect_options : IOidcOptions :=
  {| issuer := "https://idp.example";
     issuerConfiguration :=
       {| grantTypesSupported := Some ["authorization_code"] |};
     redirectUrl := None;
     sessionId := "s1";
     dpop := Some true;
     keepAlive := Some false;
     handleRedirect := None |}.

Definition no_redirect_args : SetupRedirectHandlerArgs :=
  {| oidcLoginOptions := no_redirect_options;
     state := "xyz";
     codeVerifier := "verifier123";
     targetUrl := "https://idp.example/authorize?..." |}.

(** A handler over an empty in-memory store. *)
Definition fresh : Handler InMemoryStorage RecordingRedirector :=
  mkHandler ∅ [] [].

(** A handler over an empty store with room for a single key: the first
    write of a call fits, the second does not. *)
Definition one_slot : Handler QuotaStorage RecordingRedirector :=
  mkHandler (mkQuotaStorage ∅ 1) [] [].

(** A handler over a store with room for a single key, already taken by the
    session identifier of the scenario: the write under [state] does not
    fit, the write under the session identifier replaces what is there. *)
Definition slot_taken : Handler QuotaStorage RecordingRedirector :=
  mkHandler (mkQuotaStorage {[ "s1" := ∅ ]} 1) [] [].

(** A table of channel names, each key standing for its own spelling. *)
Definition EVENTS_spelled (key : EventKey) : string :=
  match key with
  | LOGIN => "LOGIN"
  | LOGOUT => "LOGOUT"
  | SESSION_EXPIRED => "SESSION_EXPIRED"
  | SESSION_RESTORED => "SESSION_RESTORED"
  | ERROR => "ERROR"
  | SESSION_EXTENDED => "SESSION_EXTENDED"
  | TIMEOUT_SET => "TIMEOUT_SET"
  | NEW_REFRESH_TOKEN => "NEW_REFRESH_TOKEN"
  | NEW_TOKENS => "NEW_TOKENS"
  | AUTHORIZATION_REQUEST => "AUTHORIZATION_REQUEST"
  end.

(** * Further collaborators and inputs *)

(** A redirector whose hand-off always throws; it counts the attempts. *)
Record BlockedRedirector : Type := mkBlockedRedirector {
  attempts : nat
}.

#[global] Instance BlockedRedirector_redirector
    : IRedirector BlockedRedirector := {
  redirect targetUrl options blocked :=
    (mkBlockedRedirector (attempts blocked + 1),
     rejected (Error "redirect blocked"))
}.

(** A store that takes no write: each write is rejected, with the key it
    was to go under as the reason. *)
Inductive ReadOnlyStorage : Type :=
| read_only.

#[global] Instance ReadOnlyStorage_utility
    : IStorageUtility ReadOnlyStorage := {
  setForUser userId values storage := (storage, rejected (Error userId))
}.

(** A handler over the store that takes no write. *)
Definition sealed : Handler ReadOnlyStorage RecordingRedirector :=
  mkHandler read_only [] [].

(** A handler over an empty in-memory store whose redirector throws. *)
Definition blocked : Handler InMemoryStorage BlockedRedirector :=
  mkHandler ∅ (mkBlockedRedirector 0) [].

(** The options with another list of supported grant types. *)
Definition with_grantTypes (o : IOidcOptions) (grantTypes : list string)
    : IOidcOptions :=
  {| issuer := issuer o;
     issuerConfiguration := {| grantTypesSupported := Some grantTypes |};
     redirectUrl := redirectUrl o;
     sessionId := sessionId o;
     dpop := dpop o;
     keepAlive := keepAlive o;
     handleRedirect := handleRedirect o |}.

(** A second flow for the session of the scenario, with a state and a code
    verifier of its own. *)
Definition retry_args : SetupRedirectHandlerArgs :=
  {| oidcLoginOptions := scenario_options;
     state := "abc";
     codeVerifier := "verifier456";
     targetUrl := "https://idp.example/authorize?retry" |}.

(** The [*_ARGS] alias whose [eventName] is the type of a channel's name. *)
Definition ARGS_of (key : EventKey) : ARGS :=
  match key with
  | LOGIN => LOGIN_ARGS
  | LOGOUT => LOGOUT_ARGS
  | SESSION_EXPIRED => SESSION_EXPIRED_ARGS
  | SESSION_RESTORED => SESSION_RESTORED_ARGS
  | ERROR => ERROR_ARGS
  | SESSION_EXTENDED => SESSION_EXTENDED_ARGS
  | TIMEOUT_SET => TIMEOUT_SET_ARGS
  | NEW_REFRESH_TOKEN => NEW_REFRESH_TOKEN_ARGS
  | NEW_TOKENS => NEW_TOKENS_ARGS
  | AUTHORIZATION_REQUEST => AUTH_STATE_ARGS
  end.

(** ** Facts about the helpers *)

Lemma indexOf_from_range (fromIndex : Z) (x : string) (l : list string) :
  (0 ≤ fromIndex)%Z →
  (indexOf_from fromIndex x l = -1 ∧ x ∉ l)%Z
  ∨ ((fromIndex ≤ indexOf_from fromIndex x l)%Z ∧ x ∈ l).
Proof.
  revert fromIndex. induction l as [|y l IH]; intros i Hi; simpl.
  - left. split; [done | apply not_elem_of_nil].
  - destruct (String.eqb y x) eqn:E.
    + apply String.eqb_eq in E as ->. right. split; [lia | left].
    + apply String.eqb_neq in E.
      destruct (IH (i + 1)%Z ltac:(lia)) as [[-> Hn] | [Hle Hin]].
      * left. split; [done |]. intros [?|?]%elem_of_cons; [congruence | done].
      * right. split; [lia | by right].
Qed.

Lemma indexOf_found (l : list string) (x : string) :
  (indexOf l x >? -1)%Z = true ↔ x ∈ l.
Proof.
  unfold indexOf. rewrite Z.gtb_gt.
  destruct (indexOf_from_range 0 x l ltac:(lia)) as [[E Hn] | [Hle Hin]].
  - rewrite E. split; [lia | done].
  - split; [done | lia].
Qed.

Lemma parametersGuard_true (o : IOidcOptions) :
  parametersGuard o = true ↔
  (∃ grantTypes, grantTypesSupported (issuerConfiguration o) = Some grantTypes
                 ∧ "authorization_code" ∈ grantTypes)
  ∧ redirectUrl o ≠ None.
Proof.
  unfold parametersGuard.
  destruct (grantTypesSupported (issuerConfiguration o)) as [g|].
  - rewrite andb_true_iff, indexOf_found, bool_decide_eq_true.
    split.
    + intros [Hin Hr]. split; [by exists g | done].
    + intros [(g' & [= <-] & Hin) Hr]. done.
  - split; [done |]. by intros [(g & ? & _) _].
Qed.

Lemma parametersGuard_redirectUrl (o : IOidcOptions) :
  parametersGuard o = true → redirectUrl o = Some (redirectUrl_narrowed o).
Proof.
  intros [_ Hr]%parametersGuard_true. unfold redirectUrl_narrowed.
  by destruct (redirectUrl o).
Qed.

Lemma sessionRecord_codeVerifier o cv :
  sessionRecord o cv !! "codeVerifier" = Some cv.
Proof. unfold sessionRecord. by simplify_map_eq. Qed.

Lemma sessionRecord_issuer o cv :
  sessionRecord o cv !! "issuer" = Some (toString (issuer o)).
Proof. unfold sessionRecord. by simplify_map_eq. Qed.

Lemma sessionRecord_redirectUrl o cv :
  sessionRecord o cv !! "redirectUrl" = Some (redirectUrl_narrowed o).
Proof. unfold sessionRecord. by simplify_map_eq. Qed.

Lemma sessionRecord_dpop o cv :
  sessionRecord o cv !! "dpop" = Some (toString (Boolean (dpop o))).
Proof. unfold sessionRecord. by simplify_map_eq. Qed.

Lemma sessionRecord_keepAlive o cv :
  sessionRecord o cv !! "keepAlive"
  = Some (toString (booleanWithFallback (keepAlive o) true)).
Proof. unfold sessionRecord. by simplify_map_eq. Qed.

Lemma sessionRecord_fields o cv (field : string) :
  is_Some (sessionRecord o cv !! field) →
  field ∈ ["codeVerifier"; "issuer"; "redirectUrl"; "dpop"; "keepAlive"].
Proof.
  unfold sessionRecord. intros Hs.
  repeat (rewrite lookup_insert in Hs; case_decide as E;
          [subst; set_solver | clear E]).
  rewrite lookup_empty in Hs. by destruct Hs.
Qed.

(** [Promise.all] of two promises. *)
Lemma Promise_all_fulfilled (earliest : nat) (p1 p2 : Settlement) :
  Promise_all earliest [p1; p2] = fulfilled ↔ p1 = fulfilled ∧ p2 = fulfilled.
Proof.
  destruct p1 as [|e1], p2 as [|e2]; unfold Promise_all; simpl;
    split; try done; by intros [? ?].
Qed.

Lemma Promise_all_rejected (earliest : nat) (p1 p2 : Settlement) reason :
  Promise_all earliest [p1; p2] = rejected reason →
  p1 = rejected reason ∨ p2 = rejected reason.
Proof.
  destruct p1 as [|e1], p2 as [|e2]; unfold Promise_all; simpl; try done.
  - destruct earliest; simpl; intros [= <-]; by right.
  - destruct earliest; simpl; intros [= <-]; by left.
  - destruct earliest as [|[|n]]; simpl; intros [= <-];
      first [by left | by right].
Qed.

(** Either of two rejected members can be the one whose reason is given. *)
Lemma Promise_all_either (p1 p2 : Settlement) reason :
  p1 = rejected reason ∨ p2 = rejected reason →
  ∃ earliest, Promise_all earliest [p1; p2] = rejected reason.
Proof.
  intros [-> | ->].
  - by exists 0.
  - destruct p1 as [|e1]; [by exists 0 | by exists 1].
Qed.

Lemma Promise_all_not_fulfilled (earliest : nat) (p1 p2 : Settlement) :
  p1 ≠ fulfilled ∨ p2 ≠ fulfilled →
  ∃ reason, Promise_all earliest [p1; p2] = rejected reason.
Proof.
  intros Hfail.
  destruct (Promise_all earliest [p1; p2]) as [|reason] eqn:Hall;
    [| by exists reason].
  apply Promise_all_fulfilled in Hall as [-> ->]. by destruct Hfail.
Qed.

(** ** The handler against arbitrary collaborators *)

Section HandlerFacts.
Context {S R : Type} `{!IStorageUtility S} `{!IRedirector R}.
Variable earliest : nat.
Implicit Types (args : SetupRedirectHandlerArgs) (this : Handler S R).

(** One equation for the whole method. *)
Lemma setupRedirectHandler_run args this :
  let o := oidcLoginOptions args in
  let w1 := stateWrite args this in
  let w2 := sessionWrite args this in
  let rd := handOff args this in
  setupRedirectHandler earliest args this =
    if parametersGuard o then
      match Promise_all earliest [w1.2; w2.2] with
      | rejected reason => Thrown (writesStarted args this) reason
      | fulfilled =>
          match rd.2 with
          | fulfilled => Resolved (handedOff args this) tt
          | rejected reason => Thrown (handedOff args this) reason
          end
      end
    else
      Thrown this (Error "The authorization code grant requires a redirectUrl.").
Proof.
  intros o w1 w2 rd. subst o w1 w2 rd.
  unfold setupRedirectHandler, handedOff, writesStarted, handOff,
    sessionWrite, stateWrite.
  destruct (parametersGuard (oidcLoginOptions args)); simpl; [|done].
  unfold mbind, Async_bind, storageUtility_setForUser, redirector_redirect.
  simpl.
  destruct (setForUser (state args) _ (storageUtility this)) as [s1 p1]; simpl.
  destruct (setForUser (sessionId _) _ s1) as [s2 p2]; simpl.
  rewrite <- !app_assoc. simpl.
  destruct p1 as [|e1]; simpl; [|done].
  destruct p2 as [|e2]; simpl; [|done].
  destruct (redirect _ _ (redirector this)) as [r' out]; simpl.
  rewrite <- !app_assoc. simpl.
  by destruct out.
Qed.

Lemma setupRedirectHandler_inapplicable args this :
  parametersGuard (oidcLoginOptions args) = false →
  setupRedirectHandler earliest args this =
    Thrown this (Error "The authorization code grant requires a redirectUrl.").
Proof. intros Hg. rewrite setupRedirectHandler_run. simpl. by rewrite Hg. Qed.

(** A call that resolves went through every step. *)
Lemma setupRedirectHandler_resolved args this this' :
  setupRedirectHandler earliest args this = Resolved this' tt →
  parametersGuard (oidcLoginOptions args) = true
  ∧ (stateWrite args this).2 = fulfilled
  ∧ (sessionWrite args this).2 = fulfilled
  ∧ (handOff args this).2 = fulfilled
  ∧ this' = handedOff args this.
Proof.
  rewrite setupRedirectHandler_run. cbv zeta.
  destruct (parametersGuard _); [|done].
  destruct (Promise_all earliest _) as [|reason] eqn:Hall; [|done].
  apply Promise_all_fulfilled in Hall as [H1 H2].
  destruct (handOff args this).2; [|done].
  by intros [= <-].
Qed.

Lemma calls_since_app this (l : list Call) s r :
  calls_since this (mkHandler s r (calls this ++ l)) = l.
Proof. unfold calls_since. simpl. by rewrite drop_app_length. Qed.

Lemma app_ne_self {A} (l k : list A) : k ≠ [] → l ++ k ≠ l.
Proof.
  intros Hk E. apply (f_equal length) in E. rewrite length_app in E.
  destruct k; [done | simpl in E; lia].
Qed.

(** A call that fails past the guard fails on a collaborator. *)
Lemma setupRedirectHandler_thrown args this this' reason :
  parametersGuard (oidcLoginOptions args) = true →
  setupRedirectHandler earliest args this = Thrown this' reason →
  (Promise_all earliest
      [(stateWrite args this).2; (sessionWrite args this).2]
     = rejected reason
   ∧ this' = writesStarted args this)
  ∨ (Promise_all earliest
        [(stateWrite args this).2; (sessionWrite args this).2]
       = fulfilled
     ∧ (handOff args this).2 = rejected reason
     ∧ this' = handedOff args this).
Proof.
  intros Hg. rewrite setupRedirectHandler_run. cbv zeta. rewrite Hg.
  destruct (Promise_all earliest _) as [|failure] eqn:Hall.
  - destruct (handOff args this).2 as [|e3]; [done |].
    intros [= <- <-]. by right.
  - intros [= <- <-]. by left.
Qed.

(** *** The applicability predicate *)

(** C2. [canHandle] always resolves, never rejects, and its answer is
    [true] exactly when the issuer configuration's [grantTypesSupported]
    is defined and contains "authorization_code" and [redirectUrl] is
    defined; if the grant type is omitted or the redirect URL undefined,
    the answer is [false]. *)
Theorem canHandle_applicability (o : IOidcOptions) this :
  ∃ answer : bool,
    canHandle o this = Resolved this answer
    ∧ (answer = true ↔
         (∃ grantTypes,
            grantTypesSupported (issuerConfiguration o) = Some grantTypes
            ∧ "authorization_code" ∈ grantTypes)
         ∧ redirectUrl o ≠ None)
    ∧ ((∀ grantTypes,
          grantTypesSupported (issuerConfiguration o) = Some grantTypes →
          "authorization_code" ∉ grantTypes)
       ∨ redirectUrl o = None →
       answer = false).
Proof.
  exists (parametersGuard o). split; [done |]. split.
  - apply parametersGuard_true.
  - intros Hno. apply not_true_is_false.
    intros [(g & Hg & Hin) Hr]%parametersGuard_true.
    destruct Hno as [Hno | Hno]; [by apply (Hno g) | done].
Qed.

(** *** Failure of the guard *)

(** C3, amended. [setupRedirectHandler] fails before any call to a
    collaborator exactly when the applicability predicate is false; it then
    raises its own error and leaves storage, redirector and call record as
    they were.  With the predicate true the call can still fail, but only
    with the rejection of a storage write, once both writes were started,
    or with an exception of the redirector. *)
Theorem setupRedirectHandler_guard_error args this :
  (parametersGuard (oidcLoginOptions args) = false ↔
     ∃ reason, setupRedirectHandler earliest args this = Thrown this reason)
  ∧ (parametersGuard (oidcLoginOptions args) = false →
     setupRedirectHandler earliest args this =
       Thrown this
         (Error "The authorization code grant requires a redirectUrl."))
  ∧ (∀ this' reason,
       parametersGuard (oidcLoginOptions args) = true →
       setupRedirectHandler earliest args this = Thrown this' reason →
       (Promise_all earliest
           [(stateWrite args this).2; (sessionWrite args this).2]
          = rejected reason
        ∧ this' = writesStarted args this)
       ∨ (Promise_all earliest
             [(stateWrite args this).2; (sessionWrite args this).2]
            = fulfilled
          ∧ (handOff args this).2 = rejected reason
          ∧ this' = handedOff args this)).
Proof.
  split; [split | split; [apply setupRedirectHandler_inapplicable |]].
  - intros Hg. eexists. by apply setupRedirectHandler_inapplicable.
  - intros [reason Hthrown].
    destruct (parametersGuard (oidcLoginOptions args)) eqn:Hg; [|done].
    exfalso.
    destruct (setupRedirectHandler_thrown _ _ _ _ Hg Hthrown)
      as [[_ E] | (_ & _ & E)];
      apply (f_equal calls) in E; simpl in E; symmetry in E;
      by apply app_ne_self in E.
  - intros this' reason. apply setupRedirectHandler_thrown.
Qed.

(** *** What a successful call wrote and handed off *)

(** C4. After a successful call the record written under the session
    identifier holds, in its field [keepAlive], the string form of [true]
    when [options.keepAlive] is unspecified, of [false] when it is [false]
    and of [true] when it is [true]. *)
Theorem setupRedirectHandler_keepAlive args this this' :
  setupRedirectHandler earliest args this = Resolved this' tt →
  ∃ values,
    calls_since this this' !! 1
      = Some (SetForUser (sessionId (oidcLoginOptions args)) values)
    ∧ setForUser (sessionId (oidcLoginOptions args)) values
        (stateWrite args this).1 = (storageUtility this', fulfilled)
    ∧ (keepAlive (oidcLoginOptions args) = None →
       values !! "keepAlive" = Some "true")
    ∧ (keepAlive (oidcLoginOptions args) = Some false →
       values !! "keepAlive" = Some "false")
    ∧ (keepAlive (oidcLoginOptions args) = Some true →
       values !! "keepAlive" = Some "true").
Proof.
  intros (Hg & H1 & H2 & H3 & ->)%setupRedirectHandler_resolved.
  exists (sessionRecord (oidcLoginOptions args) (codeVerifier args)).
  unfold handedOff. rewrite calls_since_app. simpl.
  split; [done |]. split.
  { fold (sessionWrite args this). rewrite <- H2.
    by destruct (sessionWrite args this). }
  rewrite sessionRecord_keepAlive.
  by repeat split; intros ->.
Qed.

(** C5, amended. After a successful call the record written under the
    session identifier stores the DPoP preference under the field name
    [dpop], as the string form of [Boolean(options.dpop)]; it has no field
    [dpopBound]. *)
Theorem setupRedirectHandler_dpop args this this' :
  setupRedirectHandler earliest args this = Resolved this' tt →
  ∃ values,
    calls_since this this' !! 1
      = Some (SetForUser (sessionId (oidcLoginOptions args)) values)
    ∧ setForUser (sessionId (oidcLoginOptions args)) values
        (stateWrite args this).1 = (storageUtility this', fulfilled)
    ∧ values !! "dpop"
        = Some (toString (Boolean (dpop (oidcLoginOptions args))))
    ∧ (values !! "dpop" = Some "true" ∨ values !! "dpop" = Some "false")
    ∧ values !! "dpopBound" = None.
Proof.
  intros (Hg & H1 & H2 & H3 & ->)%setupRedirectHandler_resolved.
  exists (sessionRecord (oidcLoginOptions args) (codeVerifier args)).
  unfold handedOff. rewrite calls_since_app. simpl.
  split; [done |]. split.
  { fold (sessionWrite args this). rewrite <- H2.
    by destruct (sessionWrite args this). }
  rewrite sessionRecord_dpop. split; [done |]. split.
  - destruct (Boolean _); [by left | by right].
  - apply eq_None_not_Some. intros Hs%sessionRecord_fields.
    rewrite !elem_of_cons, elem_of_nil in Hs.
    by destruct Hs as [?|[?|[?|[?|[?|[]]]]]].
Qed.

(** C6, amended. With applicable options, if one of the two storage writes
    is rejected, the call is rejected with the reason of a rejected write
    (whichever of them rejects first, should both reject) and the redirector
    is not called: its state is the one it had, and the call record gains
    the two writes only. *)
Theorem setupRedirectHandler_failed_write args this :
  parametersGuard (oidcLoginOptions args) = true →
  (stateWrite args this).2 ≠ fulfilled
  ∨ (sessionWrite args this).2 ≠ fulfilled →
  ∃ reason,
    setupRedirectHandler earliest args this
    = Thrown (writesStarted args this) reason
    ∧ ((stateWrite args this).2 = rejected reason
       ∨ (sessionWrite args this).2 = rejected reason)
    ∧ redirector (writesStarted args this) = redirector this
    ∧ calls_since this (writesStarted args this) = writeCalls args
    ∧ existsb is_redirect (calls_since this (writesStarted args this)) = false.
Proof.
  intros Hg [reason Hall]%(Promise_all_not_fulfilled earliest).
  exists reason. split; [| split].
  - rewrite setupRedirectHandler_run. cbv zeta. by rewrite Hg, Hall.
  - by apply Promise_all_rejected in Hall.
  - unfold writesStarted. by rewrite calls_since_app.
Qed.

(** C7. A successful call invokes the redirector exactly once, after both
    storage writes were started and had fulfilled, with the caller's
    [targetUrl] and with the caller's [handleRedirect] as the only option.
    And in every run, successful or not, the redirector is called only once
    both writes were started and had fulfilled: a run in which a write is
    rejected never reaches it. *)
Theorem setupRedirectHandler_redirects_once args this :
  (∀ this',
     setupRedirectHandler earliest args this = Resolved this' tt →
     (stateWrite args this).2 = fulfilled
     ∧ (sessionWrite args this).2 = fulfilled
     ∧ calls_since this this' =
         [ SetForUser (state args) (stateRecord (oidcLoginOptions args));
           SetForUser (sessionId (oidcLoginOptions args))
             (sessionRecord (oidcLoginOptions args) (codeVerifier args));
           Redirect (targetUrl args)
             {| options_handleRedirect :=
                  handleRedirect (oidcLoginOptions args) |} ]
     ∧ length (filter (λ c, is_redirect c = true) (calls_since this this'))
       = 1
     ∧ redirect (targetUrl args)
         {| options_handleRedirect :=
              handleRedirect (oidcLoginOptions args) |}
         (redirector this) = (redirector this', fulfilled))
  ∧ (existsb is_redirect
       (calls_since this
          (handler_after (setupRedirectHandler earliest args this))) = true →
     (stateWrite args this).2 = fulfilled
     ∧ (sessionWrite args this).2 = fulfilled
     ∧ calls_since this
         (handler_after (setupRedirectHandler earliest args this)) =
         [ SetForUser (state args) (stateRecord (oidcLoginOptions args));
           SetForUser (sessionId (oidcLoginOptions args))
             (sessionRecord (oidcLoginOptions args) (codeVerifier args));
           Redirect (targetUrl args)
             {| options_handleRedirect :=
                  handleRedirect (oidcLoginOptions args) |} ]).
Proof.
  split.
  - intros this' (Hg & H1 & H2 & H3 & ->)%setupRedirectHandler_resolved.
    unfold handedOff. rewrite calls_since_app. simpl.
    repeat split; try done.
    fold (redirectOptions args). fold (handOff args this).
    rewrite <- H3. by destruct (handOff args this).
  - rewrite setupRedirectHandler_run. cbv zeta.
    destruct (parametersGuard _).
    + destruct (Promise_all earliest _) as [|reason] eqn:Hall.
      * apply Promise_all_fulfilled in Hall as [H1 H2]. intros _.
        split; [done |]. split; [done |].
        assert (handler_after
                  match (handOff args this).2 with
                  | fulfilled => Resolved (handedOff args this) tt
                  | rejected reason => Thrown (handedOff args this) reason
                  end = handedOff args this) as ->
          by by destruct (handOff _ _).2.
        unfold handedOff. by rewrite calls_since_app.
      * simpl. unfold writesStarted. rewrite calls_since_app. done.
    + simpl. unfold calls_since. by rewrite drop_all.
Qed.

End HandlerFacts.

(** ** The handler over the in-memory store *)

Section InMemoryFacts.
Context {R : Type} `{!IRedirector R}.
Variable earliest : nat.
Implicit Types (args : SetupRedirectHandlerArgs)
  (this : Handler InMemoryStorage R).

Lemma in_memory_after_writes args this :
  storageUtility (handedOff args this)
  = <[ sessionId (oidcLoginOptions args) :=
         sessionRecord (oidcLoginOptions args) (codeVerifier args) ]>
    (<[ state args := stateRecord (oidcLoginOptions args) ]>
       (storageUtility this)).
Proof. done. Qed.

(** C1, amended. With options that the applicability predicate accepts (and
    a redirector that does not throw), [setupRedirectHandler] resolves, and
    afterwards the storage holds under [options.sessionId] a record with
    the given [codeVerifier], the stringified issuer and a [redirectUrl]
    equal to [options.redirectUrl]; provided [state] differs from
    [options.sessionId], it holds under [state] a record whose [sessionId]
    is [options.sessionId]. *)
Theorem setupRedirectHandler_stores_correlation args this :
  parametersGuard (oidcLoginOptions args) = true →
  (handOff args this).2 = fulfilled →
  ∃ this',
    setupRedirectHandler earliest args this = Resolved this' tt
    ∧ (state args ≠ sessionId (oidcLoginOptions args) →
       ∃ record,
         storageUtility this' !! state args = Some record
         ∧ record !! "sessionId" = Some (sessionId (oidcLoginOptions args)))
    ∧ (∃ record,
         storageUtility this' !! sessionId (oidcLoginOptions args)
           = Some record
         ∧ record !! "codeVerifier" = Some (codeVerifier args)
         ∧ record !! "issuer"
             = Some (toString (issuer (oidcLoginOptions args)))
         ∧ record !! "redirectUrl" = redirectUrl (oidcLoginOptions args)).
Proof.
  intros Hg Hr. exists (handedOff args this).
  split; [| split].
  - rewrite setupRedirectHandler_run. simpl. by rewrite Hg, Hr.
  - intros Hne. exists (stateRecord (oidcLoginOptions args)).
    rewrite in_memory_after_writes.
    rewrite lookup_insert_ne by done. rewrite lookup_insert_eq.
    split; [done |]. unfold stateRecord. apply lookup_singleton_eq.
  - exists (sessionRecord (oidcLoginOptions args) (codeVerifier args)).
    rewrite in_memory_after_writes.
    rewrite lookup_insert_eq.
    rewrite sessionRecord_codeVerifier, sessionRecord_issuer,
      sessionRecord_redirectUrl.
    by rewrite (parametersGuard_redirectUrl _ Hg).
Qed.

End InMemoryFacts.

(** ** The statements at sample inputs *)

(** The scenario of the specification runs to its hand-off. *)
Lemma scenario_resolves :
  setupRedirectHandler 0 scenario_args fresh
  = Resolved (handedOff scenario_args fresh) tt.
Proof. vm_compute. reflexivity. Defined.

(** What the store and the redirector hold after the scenario. *)
Example scenario_storage :
  storageUtility (handedOff scenario_args fresh)
  = {[ "xyz" := {[ "sessionId" := "s1" ]};
       "s1" := {[ "codeVerifier" := "verifier123";
                  "issuer" := "https://idp.example";
                  "redirectUrl" := "https://app.example/cb";
                  "dpop" := "true";
                  "keepAlive" := "true" ]} ]}.
Proof. vm_compute. reflexivity. Qed.

Example scenario_canHandle :
  canHandle scenario_options fresh = Resolved fresh true.
Proof. reflexivity. Qed.

Example no_redirect_canHandle :
  canHandle no_redirect_options fresh = Resolved fresh false.
Proof. reflexivity. Qed.

Example no_redirect_rejected :
  setupRedirectHandler 0 no_redirect_args fresh
  = Thrown fresh (Error "The authorization code grant requires a redirectUrl.").
Proof. reflexivity. Qed.

Example keepAlive_false_stored :
  sessionRecord no_redirect_options "verifier123" !! "keepAlive" = Some "false".
Proof. vm_compute. reflexivity. Qed.

(** When both writes are rejected, the call gives the reason of the one
    that rejects first, which may be either. *)
Example both_rejected_state_first :
  setupRedirectHandler 0 scenario_args sealed
  = Thrown (writesStarted scenario_args sealed) (Error "xyz").
Proof. reflexivity. Qed.

Example both_rejected_session_first :
  setupRedirectHandler 1 scenario_args sealed
  = Thrown (writesStarted scenario_args sealed) (Error "s1").
Proof. reflexivity. Qed.

Lemma setupRedirectHandler_stores_correlation_witness :
  parametersGuard (oidcLoginOptions scenario_args) = true
  ∧ (handOff scenario_args fresh).2 = fulfilled
  ∧ ∃ this',
      setupRedirectHandler 0 scenario_args fresh = Resolved this' tt
      ∧ ∃ record,
          storageUtility this' !! "s1" = Some record
          ∧ record !! "codeVerifier" = Some "verifier123".
Proof.
  split; [reflexivity |]. split; [reflexivity |].
  destruct (setupRedirectHandler_stores_correlation 0 scenario_args fresh)
    as (this' & Hrun & _ & record & Hl & Hcv & _);
    [reflexivity | reflexivity |].
  exists this'. split; [exact Hrun |]. exists record. split; assumption.
Defined.

(** C1 as stated fails when the OAuth state equals the session identifier:
    the call resolves, and the record then found under [state] has no
    [sessionId] field. *)
Lemma state_equal_to_sessionId_overwritten :
  parametersGuard (oidcLoginOptions collision_args) = true
  ∧ state collision_args = sessionId (oidcLoginOptions collision_args)
  ∧ setupRedirectHandler 0 collision_args fresh
    = Resolved (handedOff collision_args fresh) tt
  ∧ storageUtility (handedOff collision_args fresh) !! state collision_args
    = Some (sessionRecord scenario_options "verifier123")
  ∧ sessionRecord scenario_options "verifier123" !! "sessionId" = None.
Proof. repeat split; vm_compute; reflexivity. Qed.

(** C3 as stated fails on a store that rejects a write: the options are
    accepted, the call raises all the same, and the store has changed. *)
Lemma accepted_options_can_still_fail :
  parametersGuard (oidcLoginOptions scenario_args) = true
  ∧ setupRedirectHandler 0 scenario_args one_slot
    = Thrown (writesStarted scenario_args one_slot)
        (Error "QuotaExceededError")
  ∧ entries (storageUtility one_slot) !! "xyz" = None
  ∧ entries (storageUtility (writesStarted scenario_args one_slot)) !! "xyz"
    = Some (stateRecord scenario_options).
Proof. repeat split; vm_compute; reflexivity. Qed.

Lemma setupRedirectHandler_keepAlive_witness :
  setupRedirectHandler 0 scenario_args fresh
  = Resolved (handedOff scenario_args fresh) tt
  ∧ ∃ values,
      calls_since fresh (handedOff scenario_args fresh) !! 1
        = Some (SetForUser "s1" values)
      ∧ values !! "keepAlive" = Some "true".
Proof.
  split; [exact scenario_resolves |].
  destruct (setupRedirectHandler_keepAlive 0 scenario_args fresh _
              scenario_resolves) as (values & Hcall & _ & Hdefault & _).
  exists values. split; [exact Hcall | apply Hdefault; reflexivity].
Defined.

(** C5 as stated fails in the scenario of the specification: the record
    stored under the session identifier has a field [dpop] and no field
    [dpopBound]. *)
Lemma stored_record_has_no_dpopBound :
  setupRedirectHandler 0 scenario_args fresh
  = Resolved (handedOff scenario_args fresh) tt
  ∧ storageUtility (handedOff scenario_args fresh) !! "s1"
    = Some (sessionRecord scenario_options "verifier123")
  ∧ sessionRecord scenario_options "verifier123" !! "dpopBound" = None
  ∧ sessionRecord scenario_options "verifier123" !! "dpop" = Some "true".
Proof. repeat split; vm_compute; reflexivity. Qed.

Lemma setupRedirectHandler_dpop_witness :
  setupRedirectHandler 0 scenario_args fresh
  = Resolved (handedOff scenario_args fresh) tt
  ∧ ∃ values,
      calls_since fresh (handedOff scenario_args fresh) !! 1
        = Some (SetForUser "s1" values)
      ∧ values !! "dpop" = Some "true"
      ∧ values !! "dpopBound" = None.
Proof.
  split; [exact scenario_resolves |].
  destruct (setupRedirectHandler_dpop 0 scenario_args fresh _
              scenario_resolves) as (values & Hcall & _ & Hdpop & _ & Hnone).
  exists values. split; [exact Hcall |]. split; [exact Hdpop | exact Hnone].
Defined.

(** C6 as stated fails on a store that rejects the write under [state] and
    takes the write under the session identifier: the call raises and the
    redirector is never called. *)
Lemma failed_write_stops_redirect :
  parametersGuard (oidcLoginOptions scenario_args) = true
  ∧ (stateWrite scenario_args slot_taken).2
    = rejected (Error "QuotaExceededError")
  ∧ (sessionWrite scenario_args slot_taken).2 = fulfilled
  ∧ is_thrown (setupRedirectHandler 0 scenario_args slot_taken) = true
  ∧ existsb is_redirect
      (calls (handler_after (setupRedirectHandler 0 scenario_args slot_taken)))
    = false
  ∧ redirector (handler_after (setupRedirectHandler 0 scenario_args slot_taken))
    = [].
Proof. repeat split; vm_compute; reflexivity. Qed.

Lemma setupRedirectHandler_failed_write_witness :
  parametersGuard (oidcLoginOptions scenario_args) = true
  ∧ (sessionWrite scenario_args one_slot).2 ≠ fulfilled
  ∧ ∃ reason,
      setupRedirectHandler 0 scenario_args one_slot
      = Thrown (writesStarted scenario_args one_slot) reason
      ∧ redirector (writesStarted scenario_args one_slot)
        = redirector one_slot.
Proof.
  assert (Hfails : (sessionWrite scenario_args one_slot).2 ≠ fulfilled)
    by (intros E; vm_compute in E; discriminate E).
  split; [reflexivity |]. split; [exact Hfails |].
  destruct (setupRedirectHandler_failed_write 0 scenario_args one_slot)
    as (reason & Hrun & _ & Hred & _); [reflexivity | right; exact Hfails |].
  exists reason. split; [exact Hrun | exact Hred].
Defined.

Lemma setupRedirectHandler_redirects_once_witness :
  setupRedirectHandler 0 scenario_args fresh
  = Resolved (handedOff scenario_args fresh) tt
  ∧ calls_since fresh (handedOff scenario_args fresh) =
      [ SetForUser "xyz" (stateRecord scenario_options);
        SetForUser "s1" (sessionRecord scenario_options "verifier123");
        Redirect "https://idp.example/authorize?..."
          {| options_handleRedirect := None |} ]
  ∧ redirector (handedOff scenario_args fresh)
    = [("https://idp.example/authorize?...",
        {| options_handleRedirect := None |})].
Proof.
  split; [exact scenario_resolves |].
  destruct (proj1 (setupRedirectHandler_redirects_once 0 scenario_args fresh)
              _ scenario_resolves) as (_ & _ & Hcalls & _ & Hredirect).
  split; [exact Hcalls |]. reflexivity.
Defined.

(** * The typed interface *)

Section TypedInterfaceFacts.
Variable EVENTS : EventKey → string.
Variable KeyPair : Type.

Lemma unlisted_not_in_channel name key :
  unlisted EVENTS name → name_in EVENTS name (typeof_EVENTS key) ≠ true.
Proof.
  intros Hu. simpl. rewrite bool_decide_eq_true. apply Hu.
Qed.

(** Every overload but the last names one channel; the last is the
    fallback. *)
Lemma overloads_shape method overload :
  overload ∈ overloads method →
  (∃ key, eventName overload = typeof_EVENTS key) ∨ overload = FALLBACK_ARGS.
Proof.
  intros Hin. destruct method; simpl in Hin;
    rewrite !elem_of_cons, elem_of_nil in Hin;
    (destruct Hin as [->|[->|[->|[->|[->|[->|[->|[->|[->|[->|[->|[]]]]]]]]]]]];
     [left; eexists; reflexivity.. | by right]).
Qed.

Lemma candidates_unlisted method name :
  unlisted EVENTS name → candidates EVENTS method name = [FALLBACK_ARGS].
Proof.
  intros Hu. unfold candidates.
  destruct method; cbn [overloads];
    rewrite !filter_cons_False by (apply unlisted_not_in_channel, Hu);
    by rewrite filter_cons_True by done.
Qed.

(** C8. [on] and [addListener] declare the same channel-name/listener
    pairs, [off] and [removeListener] declare the same pairs, and [once]
    declares the pairs of [on]: their overloads are the same; each of the
    ten channels has a listener signature, the same in the methods
    compared; and for every event name the overloads that take it are the
    same. *)
Theorem registration_methods_agree :
  overloads on = overloads addListener
  ∧ overloads off = overloads removeListener
  ∧ overloads once = overloads on
  ∧ (∀ key,
     is_Some (signature_of on key)
     ∧ is_Some (signature_of off key)
     ∧ signature_of on key = signature_of addListener key
     ∧ signature_of off key = signature_of removeListener key
     ∧ signature_of once key = signature_of on key)
  ∧ (∀ name,
       candidates EVENTS on name = candidates EVENTS addListener name
       ∧ candidates EVENTS off name = candidates EVENTS removeListener name
       ∧ candidates EVENTS once name = candidates EVENTS on name).
Proof.
  split; [done |]. split; [done |]. split; [done |]. split.
  - intros key.
    destruct key; (split; [by eexists |]); (split; [by eexists |]); done.
  - intros name. repeat split; reflexivity.
Qed.

(** For an event name outside the ten channels, in each of the five
    registration methods the interface declares, the only overload that
    takes the name is the fallback, whose listener type is [never] and has
    no value; no well-typed call of these methods carries the name. *)
Lemma redeclared_methods_reach_fallback method name :
  unlisted EVENTS name →
  resolve EVENTS method name = Some FALLBACK_ARGS
  ∧ candidates EVENTS method name = [FALLBACK_ARGS]
  ∧ listener FALLBACK_ARGS = never_listener
  ∧ (listener_values KeyPair (listener FALLBACK_ARGS) → False)
  ∧ (∀ call : TypedCall EVENTS KeyPair method, call_name call ≠ name).
Proof.
  intros Hu. unfold resolve. rewrite (candidates_unlisted _ _ Hu).
  split; [done |]. split; [done |]. split; [done |]. split.
  - intros [].
  - intros [overload Hdeclared called Htyped callback]. simpl. intros ->.
    destruct (overloads_shape _ _ Hdeclared) as [[key Hkey] | ->].
    + rewrite Hkey in Htyped. by apply (unlisted_not_in_channel _ key) in Hu.
    + destruct callback.
Qed.

(** C9, as the code has it. For an event name outside the ten channels,
    [on], [addListener], [once], [off] and [removeListener] fall through to
    the fallback overload, whose listener type has no value, and take no
    listener under that name; but the interface also has the inherited
    [prependListener] and [prependOnceListener], which it does not declare
    again, and each of them takes any listener under that name.  So a
    listener can be registered against an unlisted name through the typed
    interface. *)
Theorem unlisted_name_open_to_inherited_methods method inherited name
    (callback : any_listener) :
  unlisted EVENTS name →
  (resolve EVENTS method name = Some FALLBACK_ARGS
   ∧ (listener_values KeyPair (listener FALLBACK_ARGS) → False)
   ∧ (∀ call : TypedCall EVENTS KeyPair method, call_name call ≠ name))
  ∧ (∃ call : InheritedCall EVENTS inherited,
       inherited_name call = name ∧ inherited_listener call = callback).
Proof.
  intros Hu.
  destruct (redeclared_methods_reach_fallback method name Hu)
    as (Hresolve & _ & _ & Hempty & Hnone).
  split; [done |].
  assert (Htyped : name_in EVENTS name (inherited_eventName inherited) = true)
    by by destruct inherited.
  by exists (Build_InheritedCall EVENTS inherited name Htyped callback).
Qed.

(** C10. No event name has the type of [emit]'s first parameter, no value
    has the type of its remaining arguments, and so there is no well-typed
    call to [emit]. *)
Theorem emit_admits_no_call :
  (∀ name, name_in EVENTS name (emit_eventName emit) = false)
  ∧ (values KeyPair (emit_args emit) → False)
  ∧ (TypedEmit EVENTS KeyPair → False).
Proof.
  split; [done |]. split.
  - intros [].
  - intros [name Htyped arguments]. destruct arguments.
Qed.

End TypedInterfaceFacts.

Lemma unlisted_name_open_to_inherited_methods_witness :
  unlisted EVENTS_spelled (NameString "data")
  ∧ resolve EVENTS_spelled on (NameString "data") = Some FALLBACK_ARGS
  ∧ ∃ call : InheritedCall EVENTS_spelled prependListener,
      inherited_name call = NameString "data".
Proof.
  assert (Hu : unlisted EVENTS_spelled (NameString "data"))
    by (intros key; destruct key; discriminate).
  split; [exact Hu |].
  destruct (unlisted_name_open_to_inherited_methods EVENTS_spelled unit on
              prependListener (NameString "data") (λ _, tt) Hu)
    as ((Hresolve & _ & _) & call & Hname & _).
  split; [exact Hresolve |]. exists call. exact Hname.
Defined.

(** * Further properties of the handler *)

(** ** The guard *)

Lemma indexOf_from_first (fromIndex : Z) (x : string) (l : list string) :
  (indexOf_from fromIndex x l = -1 ∧ x ∉ l)%Z
  ∨ (∃ i : nat,
       indexOf_from fromIndex x l = (fromIndex + Z.of_nat i)%Z
       ∧ l !! i = Some x
       ∧ ∀ j : nat, j < i → l !! j ≠ Some x).
Proof.
  revert fromIndex. induction l as [|y l IH]; intros k; simpl.
  - left. split; [done | apply not_elem_of_nil].
  - destruct (String.eqb y x) eqn:E.
    + apply String.eqb_eq in E as ->. right. exists 0.
      split; [lia |]. split; [done |]. intros j Hj. lia.
    + apply String.eqb_neq in E.
      destruct (IH (k + 1)%Z) as [[-> Hn] | (i & Hi & Hl & Hfirst)].
      * left. split; [done |]. intros [?|?]%elem_of_cons; [congruence | done].
      * right. exists (S i). split; [lia |]. split; [done |].
        intros [|j] Hj; simpl; [congruence | apply Hfirst; lia].
Qed.

(** X1. [indexOf] answers [-1] exactly for an absent element, and otherwise
    the position of the first occurrence, which lies within the array. *)
Theorem indexOf_first_occurrence (l : list string) (x : string) :
  (indexOf l x = -1 ∧ x ∉ l)%Z
  ∨ (∃ i : nat,
       indexOf l x = Z.of_nat i
       ∧ i < length l
       ∧ l !! i = Some x
       ∧ ∀ j : nat, j < i → l !! j ≠ Some x).
Proof.
  unfold indexOf.
  destruct (indexOf_from_first 0 x l) as [H | (i & Hi & Hl & Hfirst)];
    [by left | right].
  exists i. split; [lia |]. split; [by eapply lookup_lt_Some |]. done.
Qed.

(** X2. The guard looks at the supported grant types only through the
    presence of "authorization_code": two lists that agree on it, whatever
    their order, repetitions and other members, give the same answer. *)
Theorem parametersGuard_grantTypes_membership (o : IOidcOptions)
    (grantTypes grantTypes' : list string) :
  ("authorization_code" ∈ grantTypes ↔ "authorization_code" ∈ grantTypes') →
  parametersGuard (with_grantTypes o grantTypes)
  = parametersGuard (with_grantTypes o grantTypes').
Proof.
  intros Hsame. unfold parametersGuard, with_grantTypes. simpl. f_equal.
  destruct (indexOf grantTypes _ >? -1)%Z eqn:E1,
           (indexOf grantTypes' _ >? -1)%Z eqn:E2; try done.
  - apply indexOf_found, Hsame, indexOf_found in E1. congruence.
  - apply indexOf_found, Hsame, indexOf_found in E2. congruence.
Qed.

Lemma parametersGuard_grantTypes_membership_witness :
  ("authorization_code" ∈ ["refresh_token"; "authorization_code"]
   ↔ "authorization_code"
       ∈ ["authorization_code"; "implicit"; "authorization_code"])
  ∧ parametersGuard
      (with_grantTypes scenario_options ["refresh_token"; "authorization_code"])
    = parametersGuard
        (with_grantTypes scenario_options
           ["authorization_code"; "implicit"; "authorization_code"]).
Proof.
  assert (Hsame :
    "authorization_code" ∈ ["refresh_token"; "authorization_code"]
    ↔ "authorization_code"
        ∈ ["authorization_code"; "implicit"; "authorization_code"]).
  { split; intros _; [left | right; left]. }
  split; [exact Hsame |].
  exact (parametersGuard_grantTypes_membership scenario_options _ _ Hsame).
Defined.

(** ** The stored records *)

Lemma written_records_fields (o : IOidcOptions) (cv : string) :
  dom (sessionRecord o cv)
  = {[ "codeVerifier"; "issuer"; "redirectUrl"; "dpop"; "keepAlive" ]}
  ∧ dom (stateRecord o) = {[ "sessionId" ]}.
Proof.
  split.
  - unfold sessionRecord. rewrite !dom_insert_L, dom_empty_L. set_solver.
  - unfold stateRecord. apply dom_singleton_L.
Qed.

(** X7. The two preferences are stored as one of the strings "true" and
    "false"; [keepAlive] reads "false" only for a caller who set it to
    [false], and [dpop] reads "true" only for a caller who set it to
    [true]. *)
Theorem stored_preferences (o : IOidcOptions) (cv : string) :
  (sessionRecord o cv !! "keepAlive" = Some "false" ↔ keepAlive o = Some false)
  ∧ (sessionRecord o cv !! "keepAlive" = Some "true" ↔ keepAlive o ≠ Some false)
  ∧ (sessionRecord o cv !! "dpop" = Some "true" ↔ dpop o = Some true)
  ∧ (sessionRecord o cv !! "dpop" = Some "false" ↔ dpop o ≠ Some true).
Proof.
  rewrite sessionRecord_keepAlive, sessionRecord_dpop.
  unfold toString, boolean_toString.
  destruct (keepAlive o) as [[|]|], (dpop o) as [[|]|]; simpl;
    repeat split; intros; done.
Qed.

(** ** Every outcome of a call *)

Section OutcomeFacts.
Context {S R : Type} `{!IStorageUtility S} `{!IRedirector R}.
Variable earliest : nat.
Implicit Types (args : SetupRedirectHandlerArgs) (this : Handler S R).

(** X3. [setupRedirectHandler] resolves exactly when the guard accepts the
    options, both storage writes fulfil and the redirector does not
    throw. *)
Theorem setupRedirectHandler_resolves_iff args this :
  (∃ this', setupRedirectHandler earliest args this = Resolved this' tt)
  ↔ parametersGuard (oidcLoginOptions args) = true
    ∧ (stateWrite args this).2 = fulfilled
    ∧ (sessionWrite args this).2 = fulfilled
    ∧ (handOff args this).2 = fulfilled.
Proof.
  split.
  - intros [this' Hrun].
    apply setupRedirectHandler_resolved in Hrun as (? & ? & ? & ? & _). done.
  - intros (Hg & H1 & H2 & H3). exists (handedOff args this).
    rewrite setupRedirectHandler_run. simpl. by rewrite Hg, H1, H2, H3.
Qed.

(** X4. Whatever the outcome, a call keeps the earlier calls on record and
    adds one of three runs: nothing, when the guard refuses (the handler is
    then untouched); the two writes, when one of them is rejected (the
    second write is started even if the first is rejected, and the
    redirector is left alone); the two writes followed by one redirect, when
    both writes fulfilled. *)
Theorem setupRedirectHandler_calls args this :
  let after := handler_after (setupRedirectHandler earliest args this) in
  calls after = calls this ++ calls_since this after
  ∧ ((parametersGuard (oidcLoginOptions args) = false
      ∧ after = this
      ∧ calls_since this after = [])
     ∨ (parametersGuard (oidcLoginOptions args) = true
        ∧ Promise_all earliest
            [(stateWrite args this).2; (sessionWrite args this).2]
          ≠ fulfilled
        ∧ storageUtility after = (sessionWrite args this).1
        ∧ redirector after = redirector this
        ∧ calls_since this after = writeCalls args)
     ∨ (parametersGuard (oidcLoginOptions args) = true
        ∧ Promise_all earliest
            [(stateWrite args this).2; (sessionWrite args this).2]
          = fulfilled
        ∧ storageUtility after = (sessionWrite args this).1
        ∧ redirector after = (handOff args this).1
        ∧ calls_since this after
          = writeCalls args
              ++ [Redirect (targetUrl args) (redirectOptions args)])).
Proof.
  cbv zeta. rewrite setupRedirectHandler_run. cbv zeta.
  destruct (parametersGuard (oidcLoginOptions args)).
  - destruct (Promise_all earliest _) as [|reason] eqn:Hall.
    + assert (handler_after
                match (handOff args this).2 with
                | fulfilled => Resolved (handedOff args this) tt
                | rejected reason => Thrown (handedOff args this) reason
                end = handedOff args this) as ->
        by by destruct (handOff _ _).2.
      unfold handedOff. rewrite calls_since_app. simpl.
      split; [done |]. right. by right.
    + simpl. unfold writesStarted. rewrite calls_since_app. simpl.
      split; [done |]. right. by left.
  - simpl. unfold calls_since. rewrite drop_all, app_nil_r.
    split; [done |]. by left.
Qed.

(** The calls a run adds, whatever its outcome. *)
Lemma calls_since_run args this :
  let added :=
    calls_since this
      (handler_after (setupRedirectHandler earliest args this)) in
  added = []
  ∨ added = writeCalls args
  ∨ added
    = writeCalls args ++ [Redirect (targetUrl args) (redirectOptions args)].
Proof.
  cbv zeta. rewrite setupRedirectHandler_run. cbv zeta.
  destruct (parametersGuard (oidcLoginOptions args)).
  - destruct (Promise_all earliest _) as [|reason].
    + right. right. destruct (handOff args this).2; simpl;
        unfold handedOff; by rewrite calls_since_app.
    + right. left. simpl. unfold writesStarted. by rewrite calls_since_app.
  - left. simpl. unfold calls_since. by rewrite drop_all.
Qed.

(** X6. In every run, successful or not, a write that
    [setupRedirectHandler] hands to the storage is either the one under
    [state], with a record that has the field [sessionId] and no other, or
    the one under the session identifier, with a record that has the fields
    [codeVerifier], [issuer], [redirectUrl], [dpop] and [keepAlive] and no
    other. *)
Theorem setupRedirectHandler_written_fields args this (key : string)
    (values : gmap string string) :
  SetForUser key values
    ∈ calls_since this
        (handler_after (setupRedirectHandler earliest args this)) →
  (key = state args
   ∧ values !! "sessionId" = Some (sessionId (oidcLoginOptions args))
   ∧ dom values = {[ "sessionId" ]})
  ∨ (key = sessionId (oidcLoginOptions args)
     ∧ values !! "codeVerifier" = Some (codeVerifier args)
     ∧ dom values
       = {[ "codeVerifier"; "issuer"; "redirectUrl"; "dpop"; "keepAlive" ]}).
Proof.
  intros Hin.
  assert (Hwrite : SetForUser key values ∈ writeCalls args).
  { destruct (calls_since_run args this) as [E | [E | E]];
      rewrite E in Hin.
    - by apply elem_of_nil in Hin.
    - done.
    - apply elem_of_app in Hin as [Hin | Hin]; [done |].
      by apply list_elem_of_singleton in Hin. }
  unfold writeCalls in Hwrite.
  rewrite !elem_of_cons, elem_of_nil in Hwrite.
  destruct Hwrite as [[= -> ->] | [[= -> ->] | []]].
  - left. split; [done |]. split.
    + apply lookup_singleton_eq.
    + apply dom_singleton_L.
  - right. split; [done |]. split.
    + apply sessionRecord_codeVerifier.
    + exact (proj1 (written_records_fields _ _)).
Qed.

End OutcomeFacts.

(** ** More on the in-memory store *)

Section InMemoryMore.
Context {R : Type} `{!IRedirector R}.
Variable earliest : nat.
Implicit Types (args : SetupRedirectHandlerArgs)
  (this : Handler InMemoryStorage R).

(** The store after a call, whatever its outcome. *)
Lemma in_memory_after args this :
  storageUtility (handler_after (setupRedirectHandler earliest args this))
  = if parametersGuard (oidcLoginOptions args) then
      <[ sessionId (oidcLoginOptions args) :=
           sessionRecord (oidcLoginOptions args) (codeVerifier args) ]>
      (<[ state args := stateRecord (oidcLoginOptions args) ]>
         (storageUtility this))
    else storageUtility this.
Proof.
  rewrite setupRedirectHandler_run. simpl.
  destruct (parametersGuard _); [|done].
  by destruct (handOff args this).2.
Qed.

(** X5. When the redirector throws, the call fails with the redirector's
    reason after one hand-off attempt, and nothing is rolled back: both
    records stay in the store. *)
Theorem redirect_failure_keeps_writes args this reason :
  parametersGuard (oidcLoginOptions args) = true →
  (handOff args this).2 = rejected reason →
  ∃ after,
    setupRedirectHandler earliest args this = Thrown after reason
    ∧ storageUtility after !! sessionId (oidcLoginOptions args)
      = Some (sessionRecord (oidcLoginOptions args) (codeVerifier args))
    ∧ (state args ≠ sessionId (oidcLoginOptions args) →
       storageUtility after !! state args
       = Some (stateRecord (oidcLoginOptions args)))
    ∧ calls_since this after
      = writeCalls args ++ [Redirect (targetUrl args) (redirectOptions args)].
Proof.
  intros Hg Hr. exists (handedOff args this).
  split; [| split; [| split]].
  - rewrite setupRedirectHandler_run. simpl. by rewrite Hg, Hr.
  - rewrite in_memory_after_writes. apply lookup_insert_eq.
  - intros Hne. rewrite in_memory_after_writes.
    rewrite lookup_insert_ne by done. apply lookup_insert_eq.
  - unfold handedOff. by rewrite calls_since_app.
Qed.

(** X8. A call writes under [state] and under the session identifier only:
    whatever its outcome, the record under any other key is the one that
    was there before. *)
Theorem setupRedirectHandler_other_keys args this (key : string) :
  key ≠ state args →
  key ≠ sessionId (oidcLoginOptions args) →
  storageUtility (handler_after (setupRedirectHandler earliest args this)) !! key
  = storageUtility this !! key.
Proof.
  intros Hstate Hsession. rewrite in_memory_after.
  destruct (parametersGuard _); [|done].
  by rewrite !lookup_insert_ne.
Qed.

(** X9. A second flow for the same session replaces the session's record:
    after two successful calls with the same session identifier the store
    holds the second call's record under it, while the first call's [state]
    (if it is neither the second [state] nor the session identifier) still
    leads to that session. *)
Theorem second_flow_replaces_session_record (earliest' : nat) args1 args2 this
    mid final :
  sessionId (oidcLoginOptions args1) = sessionId (oidcLoginOptions args2) →
  setupRedirectHandler earliest args1 this = Resolved mid tt →
  setupRedirectHandler earliest' args2 mid = Resolved final tt →
  storageUtility final !! sessionId (oidcLoginOptions args1)
  = Some (sessionRecord (oidcLoginOptions args2) (codeVerifier args2))
  ∧ (state args1 ≠ state args2 →
     state args1 ≠ sessionId (oidcLoginOptions args1) →
     storageUtility final !! state args1
     = Some (stateRecord (oidcLoginOptions args1)))
  ∧ calls_since this final
    = writeCalls args1
        ++ [Redirect (targetUrl args1) (redirectOptions args1)]
        ++ writeCalls args2
        ++ [Redirect (targetUrl args2) (redirectOptions args2)].
Proof.
  intros Hsame (_ & _ & _ & _ & ->)%setupRedirectHandler_resolved
    (_ & _ & _ & _ & ->)%setupRedirectHandler_resolved.
  split; [| split].
  - rewrite Hsame, in_memory_after_writes. apply lookup_insert_eq.
  - intros Hs Hk. rewrite in_memory_after_writes.
    rewrite lookup_insert_ne by congruence.
    rewrite lookup_insert_ne by congruence.
    rewrite in_memory_after_writes.
    rewrite lookup_insert_ne by congruence. apply lookup_insert_eq.
  - unfold calls_since, handedOff. simpl.
    rewrite <- !app_assoc. by rewrite drop_app_length.
Qed.

(** X10. Repeating a successful call with the same arguments leaves the
    store as the first call left it. *)
Theorem repeated_call_same_store (earliest' : nat) args this mid final :
  setupRedirectHandler earliest args this = Resolved mid tt →
  setupRedirectHandler earliest' args mid = Resolved final tt →
  storageUtility final = storageUtility mid.
Proof.
  intros (_ & _ & _ & _ & ->)%setupRedirectHandler_resolved
    (_ & _ & _ & _ & ->)%setupRedirectHandler_resolved.
  rewrite (in_memory_after_writes args (handedOff args this)).
  rewrite in_memory_after_writes.
  apply map_eq. intros key.
  destruct (decide (key = sessionId (oidcLoginOptions args))) as [->|Hk].
  - by rewrite !lookup_insert_eq.
  - rewrite !(lookup_insert_ne _ (sessionId _)) by done.
    destruct (decide (key = state args)) as [->|Hs].
    + by rewrite !lookup_insert_eq.
    + by repeat (rewrite lookup_insert_ne by done).
Qed.

End InMemoryMore.

(** ** The further statements at sample inputs *)

Lemma setupRedirectHandler_written_fields_witness :
  SetForUser "s1" (sessionRecord scenario_options "verifier123")
    ∈ calls_since fresh
        (handler_after (setupRedirectHandler 0 scenario_args fresh))
  ∧ dom (sessionRecord scenario_options "verifier123")
    = {[ "codeVerifier"; "issuer"; "redirectUrl"; "dpop"; "keepAlive" ]}.
Proof.
  assert (Hin :
    SetForUser "s1" (sessionRecord scenario_options "verifier123")
      ∈ calls_since fresh
          (handler_after (setupRedirectHandler 0 scenario_args fresh)))
    by (apply list_elem_of_lookup; exists 1; reflexivity).
  split; [exact Hin |].
  destruct (setupRedirectHandler_written_fields 0 scenario_args fresh _ _ Hin)
    as [(Hkey & _) | (_ & _ & Hdom)]; [discriminate Hkey | exact Hdom].
Defined.

Lemma redirect_failure_keeps_writes_witness :
  parametersGuard (oidcLoginOptions scenario_args) = true
  ∧ (handOff scenario_args blocked).2 = rejected (Error "redirect blocked")
  ∧ ∃ after,
      setupRedirectHandler 0 scenario_args blocked
      = Thrown after (Error "redirect blocked")
      ∧ storageUtility after !! "s1"
        = Some (sessionRecord scenario_options "verifier123").
Proof.
  split; [reflexivity |]. split; [reflexivity |].
  destruct (redirect_failure_keeps_writes 0 scenario_args blocked
              (Error "redirect blocked"))
    as (after & Hrun & Hsession & _); [reflexivity | reflexivity |].
  exists after. split; [exact Hrun | exact Hsession].
Defined.

Lemma setupRedirectHandler_other_keys_witness :
  "other" ≠ state scenario_args
  ∧ "other" ≠ sessionId (oidcLoginOptions scenario_args)
  ∧ storageUtility (handler_after (setupRedirectHandler 0 scenario_args fresh))
      !! "other"
    = storageUtility fresh !! "other".
Proof.
  assert (H1 : "other" ≠ state scenario_args) by discriminate.
  assert (H2 : "other" ≠ sessionId (oidcLoginOptions scenario_args))
    by discriminate.
  split; [exact H1 |]. split; [exact H2 |].
  exact (setupRedirectHandler_other_keys 0 scenario_args fresh "other" H1 H2).
Defined.

(** The retry runs to its hand-off after the scenario. *)
Lemma retry_resolves :
  setupRedirectHandler 0 retry_args (handedOff scenario_args fresh)
  = Resolved (handedOff retry_args (handedOff scenario_args fresh)) tt.
Proof. vm_compute. reflexivity. Defined.

Lemma scenario_resolves_again :
  setupRedirectHandler 0 scenario_args (handedOff scenario_args fresh)
  = Resolved (handedOff scenario_args (handedOff scenario_args fresh)) tt.
Proof. vm_compute. reflexivity. Defined.

Lemma second_flow_replaces_session_record_witness :
  sessionId (oidcLoginOptions scenario_args)
  = sessionId (oidcLoginOptions retry_args)
  ∧ setupRedirectHandler 0 scenario_args fresh
    = Resolved (handedOff scenario_args fresh) tt
  ∧ setupRedirectHandler 0 retry_args (handedOff scenario_args fresh)
    = Resolved (handedOff retry_args (handedOff scenario_args fresh)) tt
  ∧ storageUtility (handedOff retry_args (handedOff scenario_args fresh))
      !! "s1"
    = Some (sessionRecord scenario_options "verifier456").
Proof.
  split; [reflexivity |]. split; [exact scenario_resolves |].
  split; [exact retry_resolves |].
  destruct (second_flow_replaces_session_record 0 0 scenario_args retry_args
              fresh _ _ eq_refl scenario_resolves retry_resolves)
    as (Hsession & _).
  exact Hsession.
Defined.

Lemma repeated_call_same_store_witness :
  setupRedirectHandler 0 scenario_args fresh
  = Resolved (handedOff scenario_args fresh) tt
  ∧ setupRedirectHandler 0 scenario_args (handedOff scenario_args fresh)
    = Resolved (handedOff scenario_args (handedOff scenario_args fresh)) tt
  ∧ storageUtility (handedOff scenario_args (handedOff scenario_args fresh))
    = storageUtility (handedOff scenario_args fresh).
Proof.
  split; [exact scenario_resolves |]. split; [exact scenario_resolves_again |].
  exact (repeated_call_same_store 0 0 scenario_args fresh _ _
           scenario_resolves scenario_resolves_again).
Defined.

(** * Further properties of the typed interface *)

Section ListedChannels.
Variable EVENTS : EventKey → string.
Variable KeyPair : Type.

(** X11. When the ten channel names are pairwise different, registering
    under the name of a channel is checked against that channel's own
    overload: it is the first that takes the name, and the only other one
    is the fallback. *)
Theorem listed_name_resolves method key :
  Inj (=) (=) EVENTS →
  candidates EVENTS method (NameString (EVENTS key))
  = [ARGS_of key; FALLBACK_ARGS]
  ∧ resolve EVENTS method (NameString (EVENTS key)) = Some (ARGS_of key).
Proof.
  intros Hinj.
  assert (Hc : candidates EVENTS method (NameString (EVENTS key))
               = [ARGS_of key; FALLBACK_ARGS]).
  { unfold candidates.
    destruct method, key; cbn [overloads ARGS_of];
      repeat first
        [ rewrite filter_cons_True
            by (simpl; rewrite ?bool_decide_eq_true; done)
        | rewrite filter_cons_False
            by (simpl; rewrite bool_decide_eq_true;
                intros [= E%Hinj]; discriminate) ];
      by rewrite filter_nil. }
  split; [exact Hc |]. unfold resolve. by rewrite Hc.
Qed.

(** X12. Each of the ten channels can be registered on: for every method
    and channel there is a well-typed call under the channel's name, checked
    against the channel's own overload. *)
Theorem channel_admits_registration method key :
  ∃ call : TypedCall EVENTS KeyPair method,
    call_name call = NameString (EVENTS key)
    ∧ call_overload call = ARGS_of key.
Proof.
  assert (Hdeclared : ARGS_of key ∈ overloads method)
    by (destruct method, key; cbn [overloads ARGS_of]; repeat constructor).
  assert (Htyped :
    name_in EVENTS (NameString (EVENTS key)) (eventName (ARGS_of key)) = true)
    by (destruct key; simpl; by apply bool_decide_eq_true).
  assert (callback : listener_values KeyPair (listener (ARGS_of key))).
  { destruct key; simpl;
      first [ exact (λ _, tt) | exact (λ _, JsUndefined)
            | exact (λ _ _, JsUndefined) ]. }
  by exists (Build_TypedCall EVENTS KeyPair method (ARGS_of key) Hdeclared
              (NameString (EVENTS key)) Htyped callback).
Qed.

End ListedChannels.

Lemma listed_name_resolves_witness :
  Inj (=) (=) EVENTS_spelled
  ∧ resolve EVENTS_spelled once (NameString "NEW_TOKENS")
    = Some NEW_TOKENS_ARGS.
Proof.
  assert (Hinj : Inj (=) (=) EVENTS_spelled)
    by (intros k1 k2; destruct k1, k2; simpl; intros E;
        first [reflexivity | discriminate E]).
  split; [exact Hinj |].
  exact (proj2 (listed_name_resolves EVENTS_spelled once NEW_TOKENS Hinj)).
Defined.
